(** * The run-loop controller of [app.py]

    A shallow embedding of [src/files/app.py]: the [App] class with its
    liveness flag and tick counter, the signal handler, the startup
    diagnostics and the [run] loop with its [try/except/finally].

    The interpreter is modelled as far as the program depends on it:
    - objects live in a store, and a registered signal handler is the
      bound method of one object of that store;
    - the table of signal dispositions, the log written through the module
      level [logger] and the clock are process wide;
    - the environment decides what happens next at each program point of
      the loop: the pending statement runs, it raises, a signal is
      delivered, or part of a sleep elapses. *)

From stdpp Require Import gmap strings pretty list.

Local Open Scope Z_scope.

(** ** Signals, exceptions and log records *)

Inductive signum := SIGINT | SIGTERM.

(** The number the handler receives as [signum]. *)
Definition signum_value (s : signum) : Z :=
  match s with SIGINT => 2 | SIGTERM => 15 end.

(** What can be raised: the built-in direct subclasses of
    [BaseException], where [Exception] stands for [Exception] and all its
    subclasses, and [OtherBaseException] for every other class derived
    from [BaseException] and not from [Exception] ([BaseExceptionGroup],
    [asyncio.CancelledError], classes of a program's own). [Exception] and
    [OtherBaseException] carry what [str(e)] prints. *)
Inductive exn :=
| KeyboardInterrupt
| SystemExit (code : Z)
| GeneratorExit
| Exception (text : string)
| OtherBaseException (text : string).

Definition isinstance_Exception (e : exn) : bool :=
  match e with Exception _ => true | _ => false end.

(** What [f"{e}"] prints. *)
Definition str (e : exn) : string :=
  match e with
  | Exception text | OtherBaseException text => text
  | SystemExit code => pretty code
  | KeyboardInterrupt | GeneratorExit => ""
  end.

Inductive levelname := INFO | ERROR.

Record LogRecord := {
  level : levelname;
  message : string;
  exc_info : bool
}.

(** ** The controller object *)

Record App := {
  running : bool;
  counter : Z
}.

(** [App.__init__] *)
Definition App_init : App := {| running := true; counter := 0 |}.

(** ** Process state *)

(** What a signal is bound to: the operating system's default action,
    Python's own [signal.default_int_handler] (installed for SIGINT when the
    interpreter starts), or the bound method [signal_handler] of the object
    [self]. *)
Inductive disposition :=
| SIG_DFL
| default_int_handler
| Bound (self : nat).

(** What the program reads from its platform: [sys.executable],
    [sys.version], [os.environ], [os.getcwd()], and how
    [datetime.now().strftime('%Y-%m-%d %H:%M:%S')] prints the clock.
    [os_getcwd] is the string the call returns: a process whose working
    directory has been removed, where [os.getcwd()] raises on line 42
    before the [try] block is entered, is not described. *)
Record Platform := {
  sys_executable : string;
  sys_version : string;
  os_environ : gmap string string;
  os_getcwd : string;
  strftime : Z -> string
}.

Record World := {
  objs : gmap nat App;
  on_sigterm : disposition;
  on_sigint : disposition;
  log : list LogRecord;
  clock : Z
}.

Definition set_objs (f : gmap nat App -> gmap nat App) (w : World) : World :=
  {| objs := f (objs w); on_sigterm := on_sigterm w; on_sigint := on_sigint w;
     log := log w; clock := clock w |}.

Definition emit (r : LogRecord) (w : World) : World :=
  {| objs := objs w; on_sigterm := on_sigterm w; on_sigint := on_sigint w;
     log := log w ++ [r]; clock := clock w |}.

Definition advance (dt : Z) (w : World) : World :=
  {| objs := objs w; on_sigterm := on_sigterm w; on_sigint := on_sigint w;
     log := log w; clock := clock w + dt |}.

(** [logger.info(msg)] *)
Definition logger_info (msg : string) : World -> World :=
  emit {| level := INFO; message := msg; exc_info := false |}.

(** [logger.error(msg, exc_info=True)] *)
Definition logger_error (msg : string) : World -> World :=
  emit {| level := ERROR; message := msg; exc_info := true |}.

(** [signal.signal(s, d)] *)
Definition signal_signal (s : signum) (d : disposition) (w : World) : World :=
  match s with
  | SIGTERM =>
      {| objs := objs w; on_sigterm := d; on_sigint := on_sigint w;
         log := log w; clock := clock w |}
  | SIGINT =>
      {| objs := objs w; on_sigterm := on_sigterm w; on_sigint := d;
         log := log w; clock := clock w |}
  end.

Definition getsignal (s : signum) (w : World) : disposition :=
  match s with SIGTERM => on_sigterm w | SIGINT => on_sigint w end.

(** Attribute reads and writes on the object [self]. The loop only reads
    the attributes of an object that exists (see [registered] below), so
    the value given for a missing object is never used. *)
Definition get_running (self : nat) (w : World) : bool :=
  match objs w !! self with Some a => running a | None => false end.

Definition get_counter (self : nat) (w : World) : Z :=
  match objs w !! self with Some a => counter a | None => 0 end.

Definition set_running (b : bool) (a : App) : App :=
  {| running := b; counter := counter a |}.

Definition set_counter (n : Z) (a : App) : App :=
  {| running := running a; counter := n |}.

(** [app = App()]: a new object at an unused address. *)
Definition App_new (w : World) : nat * World :=
  let self := fresh (dom (objs w)) in
  (self, set_objs (insert self App_init) w).

(** ** The methods of [App] *)

(** [App.signal_handler] (lines 33-35) *)
Definition signal_handler (self : nat) (signum : Z) (w : World) : World :=
  let w := logger_info ("Received signal " +:+ pretty signum
                        +:+ ", shutting down gracefully...") w in
  set_objs (alter (set_running false) self) w.

(** [App.log_environment_info] (lines 37-42) *)
Definition log_environment_info (P : Platform) (w : World) : World :=
  let w := logger_info ("Python executable: " +:+ sys_executable P) w in
  let w := logger_info ("Python version: " +:+ sys_version P) w in
  let w := logger_info ("Virtual environment: "
             +:+ default "Not set" (os_environ P !! "VIRTUAL_ENV")) w in
  logger_info ("Working directory: " +:+ os_getcwd P) w.

(** ** [App.run] *)

(** How [run] ends: it returns, an exception leaves it, or the process is
    killed by a signal whose disposition is the default action. *)
Inductive outcome :=
| Returned
| Propagated (e : exn)
| Killed (s : signum).

(** The program points of the [try] block, named after their source lines:
    the loop test, the increment, the rest of the unit of work (timestamp,
    log line and the application logic the comments leave room for), and
    [time.sleep(60)] with the time it still has to sleep. *)
Inductive point :=
| L55
| L57
| L58
| L67 (remaining : Z)
| Done (o : outcome).

Record Config := {
  pc : point;
  world : World
}.

(** What the environment does next. [Elapse dt] lets [dt] seconds of a
    sleep pass; [Proceed] runs the pending statement to its end (a sleep:
    to the end of its remaining time). Statements other than the sleep take
    no time. *)
Inductive event :=
| Proceed
| Raise (e : exn)
| Deliver (s : signum)
| Elapse (dt : Z).

(** Lines 46-52: the two registrations, the start message and the
    diagnostics, run from their first statement to their last. What a
    signal does that arrives before line 46 is [deliver_at_entry] below. *)
Definition run_prologue (P : Platform) (self : nat) (w : World) : World :=
  let w := signal_signal SIGTERM (Bound self) w in
  let w := signal_signal SIGINT (Bound self) w in
  let w := logger_info "Starting App service..." w in
  log_environment_info P w.

(** The [finally] clause (lines 73-74). *)
Definition finally_ (o : outcome) (w : World) : Config :=
  {| pc := Done o; world := logger_info "App service stopped" w |}.

(** The [except] clauses (lines 69-72): an exception matched by neither
    leaves [run] after the [finally] clause. *)
Definition except_ (e : exn) (w : World) : Config :=
  match e with
  | KeyboardInterrupt =>
      finally_ Returned (logger_info "Received keyboard interrupt" w)
  | Exception _ =>
      finally_ Returned (logger_error ("Unexpected error: " +:+ str e) w)
  | SystemExit _ | GeneratorExit | OtherBaseException _ =>
      finally_ (Propagated e) w
  end.

(** A signal arrives while the [try] block is at [p]. A Python level handler
    runs in the main thread and execution resumes where it was; when it
    arrives during [time.sleep] and the handler returns normally, the sleep
    goes on for its remaining time (PEP 475, Python 3.5 and later; the
    f-strings of the source need 3.6). *)
Definition deliver (s : signum) (p : point) (w : World) : Config :=
  match getsignal s w with
  | Bound o => {| pc := p; world := signal_handler o (signum_value s) w |}
  | default_int_handler => except_ KeyboardInterrupt w
  | SIG_DFL => {| pc := Done (Killed s); world := w |}
  end.

(** One statement of the loop (lines 55-67). *)
Definition proceed (P : Platform) (self : nat) (p : point) (w : World)
  : Config :=
  match p with
  | L55 =>
      if get_running self w then {| pc := L57; world := w |}
      else finally_ Returned w
  | L57 =>
      {| pc := L58;
         world := set_objs
                    (alter (fun a => set_counter (counter a + 1) a) self) w |}
  | L58 =>
      let current_time := strftime P (clock w) in
      {| pc := L67 60;
         world := logger_info ("Application running - Counter: "
                     +:+ pretty (get_counter self w)
                     +:+ ", Time: " +:+ current_time) w |}
  | L67 r => {| pc := L55; world := advance r w |}
  | Done o => {| pc := Done o; world := w |}
  end.

(** One event. The [except] and [finally] clauses run as one step, and
    [Done] is the end of what is described: the script has nothing after
    [app.run()] (lines 76-78), and events that arrive while the process
    winds down are not followed. *)
Definition step (P : Platform) (self : nat) (ev : event) (c : Config)
  : Config :=
  match pc c with
  | Done _ => c
  | p =>
      match ev with
      | Proceed => proceed P self p (world c)
      | Raise e => except_ e (world c)
      | Deliver s => deliver s p (world c)
      | Elapse dt =>
          match p with
          | L67 r =>
              if (0 <? dt) && (dt <? r)
              then {| pc := L67 (r - dt); world := advance dt (world c) |}
              else c
          | _ => c
          end
      end
  end.

Definition exec (P : Platform) (self : nat) (evs : list event) (c : Config)
  : Config :=
  fold_left (fun c ev => step P self ev c) evs c.

(** [self.run()] under the events [evs]. *)
Definition run (P : Platform) (self : nat) (w : World) (evs : list event)
  : Config :=
  exec P self evs {| pc := L55; world := run_prologue P self w |}.

(** The state of a process that has just started the interpreter. *)
Definition boot : World :=
  {| objs := ∅; on_sigterm := SIG_DFL; on_sigint := default_int_handler;
     log := []; clock := 0 |}.

(** Lines 76-78: [app = App(); app.run()]. *)
Definition main (P : Platform) (evs : list event) : Config :=
  let '(self, w) := App_new boot in run P self w evs.

(** How the process ends: with an exit code, as a [SystemExit] that left
    [run] asks (how the interpreter turns its argument into the status
    byte is left to the interpreter), or killed by a signal. *)
Inductive status :=
| Exited (code : Z)
| ExitedBySystemExit (arg : Z)
| Signaled (s : signum).

(** No [sys.exit] follows [app.run()]: when [run] returns the script ends
    and the interpreter exits with 0. Any other exception that leaves [run]
    is reported with its traceback and the exit code is 1. *)
Definition exit_status (o : outcome) : status :=
  match o with
  | Returned => Exited 0
  | Propagated (SystemExit code) => ExitedBySystemExit code
  | Propagated _ => Exited 1
  | Killed s => Signaled s
  end.

Definition process_status (c : Config) : option status :=
  match pc c with Done o => Some (exit_status o) | _ => None end.

Definition in_loop (c : Config) : bool :=
  match pc c with Done _ => false | _ => true end.

(** A platform and an execution to evaluate the definitions on. *)
Definition P0 : Platform :=
  {| sys_executable := "/opt/app/.venv/bin/python3";
     sys_version := "3.11.2";
     os_environ := {[ "VIRTUAL_ENV" := "/opt/app/.venv" ]};
     os_getcwd := "/opt/app";
     strftime := fun t => "t+" +:+ pretty t |}.

(** The address [App()] gets in a process that has just started. *)
Definition app0 : nat := fst (App_new boot).

(** One whole tick up to the start of its wait. *)
Definition one_tick : list event := [Proceed; Proceed; Proceed].

(** ** Observations on executions *)

(** The event [ev] completes a unit of work at [c]: the rest of the unit
    of work runs to its end and the wait begins. *)
Definition completes (ev : event) (c : Config) : bool :=
  match pc c, ev with L58, Proceed => true | _, _ => false end.

(** The number of units of work completed while [evs] run from [c]. *)
Fixpoint completed (P : Platform) (self : nat) (evs : list event) (c : Config)
  : Z :=
  match evs with
  | [] => 0
  | ev :: evs' =>
      (if completes ev c then 1 else 0)
      + completed P self evs' (step P self ev c)
  end.

(** The unit of work of a tick is executing. *)
Definition in_unit_of_work (c : Config) : bool :=
  match pc c with L57 | L58 => true | _ => false end.

(** From [c] to [c'] the exception [e] was caught inside [run] and logged
    at error severity with its traceback, before the cleanup message. *)
Definition caught_and_logged_as_error (e : exn) (c c' : Config) : Prop :=
  pc c' = Done Returned
  /\ log (world c')
     = log (world c)
       ++ [ {| level := ERROR; message := "Unexpected error: " +:+ str e;
               exc_info := true |};
            {| level := INFO; message := "App service stopped";
               exc_info := false |} ].

(** The wait that began at [c] ended with the loop left at [c'] before the
    fixed interval was over. *)
Definition wait_cut_short (c c' : Config) : Prop :=
  pc c' = Done Returned /\ clock (world c') < clock (world c) + 60.

(** How many statements a loop whose flag is false still runs from [p]
    until [run] returns. *)
Definition steps_to_exit (p : point) : nat :=
  match p with
  | L55 => 1
  | L57 => 4
  | L58 => 3
  | L67 _ => 2
  | Done _ => 0
  end.

(** The platform [P] with [os.environ] replaced by [m]. *)
Definition with_environ (m : gmap string string) (P : Platform) : Platform :=
  {| sys_executable := sys_executable P; sys_version := sys_version P;
     os_environ := m; os_getcwd := os_getcwd P; strftime := strftime P |}.

(** The configuration [c] with the records [l] in front of its log. *)
Definition prepend (l : list LogRecord) (c : Config) : Config :=
  {| pc := pc c;
     world := {| objs := objs (world c); on_sigterm := on_sigterm (world c);
                 on_sigint := on_sigint (world c);
                 log := l ++ log (world c); clock := clock (world c) |} |}.

(** The records lines 49-52 write. *)
Definition startup_records (P : Platform) : list LogRecord :=
  log (run_prologue P 0%nat boot).

(** What the loop of the controller [self] shows of its control flow. *)
Definition view (self : nat) (c : Config) : point * option App :=
  (pc c, objs (world c) !! self).

(** The counter of [self] against [k] completed units of work: one ahead
    while the rest of a unit of work is pending, and at most one ahead
    once [run] is over. *)
Definition counter_inv (self : nat) (k : Z) (c : Config) : Prop :=
  match pc c with
  | L55 | L57 | L67 _ => get_counter self (world c) = k
  | L58 => get_counter self (world c) = k + 1
  | Done _ => k <= get_counter self (world c) <= k + 1
  end.

(** ** Invariants of the loop *)

(** Both signals are bound to the handler of [self], and [self] exists. *)
Definition registered (self : nat) (w : World) : Prop :=
  on_sigterm w = Bound self /\ on_sigint w = Bound self /\
  is_Some (objs w !! self).

(** Two process states that look the same to the loops of [self] and
    [self']: the two objects are equal, each loop owns both signals, the
    first clock is [d] ahead, and the first log has records of the levels
    [lv0] in front of records of the same levels as the second. *)
Definition simw (self self' : nat) (lv0 : list levelname) (d : Z)
    (w w' : World) : Prop :=
  objs w !! self = objs w' !! self'
  /\ registered self w /\ registered self' w'
  /\ clock w = clock w' + d
  /\ map level (log w) = lv0 ++ map level (log w').

Definition sim (self self' : nat) (lv0 : list levelname) (d : Z)
    (c c' : Config) : Prop :=
  pc c = pc c' /\ simw self self' lv0 d (world c) (world c').

(** ** Where the records go *)

(** Lines 17-24: the root logger has two handlers, a [FileHandler] on the
    log file and a [StreamHandler] on standard output, and its level is
    INFO, which both levels the program uses pass. *)
Inductive sink :=
| FileHandler (path : string)
| StreamHandler_stdout.

Definition handlers : list sink :=
  [FileHandler "/var/log/app/app.log"; StreamHandler_stdout].

(** One handler writing one record: a write to its stream followed by a
    flush, made by the thread that logs, before the logging call
    returns. *)
Record emission := {
  to : sink;
  record : LogRecord
}.

(** The writes the records [l] cause, in order: each record goes to each
    handler in turn. *)
Definition emissions (l : list LogRecord) : list emission :=
  flat_map (fun r => map (fun h => {| to := h; record := r |}) handlers) l.

(** The writes made between the states [w] and [w']: those of the records
    logged in between. *)
Definition io_between (w w' : World) : list emission :=
  emissions (drop (length (log w)) (log w')).

(** The writes one call of the signal handler makes. *)
Definition handler_io (self : nat) (signum : Z) (w : World)
  : list emission :=
  io_between w (signal_handler self signum w).

(** The handler returns without having done input or output. *)
Definition no_blocking_work (self : nat) (signum : Z) (w : World) : Prop :=
  handler_io self signum w = [].

(** The record the handler writes for the signal [s]. *)
Definition received_record (s : signum) : LogRecord :=
  {| level := INFO;
     message := "Received signal " +:+ pretty (signum_value s)
                +:+ ", shutting down gracefully...";
     exc_info := false |}.

(** The record the [finally] clause writes. *)
Definition cleanup_record : LogRecord :=
  {| level := INFO; message := "App service stopped"; exc_info := false |}.

(** ** A signal before the handlers are bound *)

(** A signal that arrives when [run] has been entered and line 46 has not
    run yet. It meets the dispositions the process has at that moment. No
    [try] block is around: a [KeyboardInterrupt] raised by Python's
    default handler leaves [run] without the cleanup message. *)
Definition deliver_at_entry (s : signum) (w : World) : World + outcome :=
  match getsignal s w with
  | Bound o => inl (signal_handler o (signum_value s) w)
  | default_int_handler => inr (Propagated KeyboardInterrupt)
  | SIG_DFL => inr (Killed s)
  end.

(** [self.run()] with the signal [s] arriving at its entry, then the events
    [evs] in the loop. *)
Definition run_with_entry_signal (P : Platform) (self : nat) (s : signum)
    (w : World) (evs : list event) : Config :=
  match deliver_at_entry s w with
  | inl w' => run P self w' evs
  | inr o => {| pc := Done o; world := w |}
  end.

(** A second run on a fresh instance, after a first run under [evs1],
    shows the same control flow as the run of a fresh process, when the
    signal [s] arrives at the entry of [run] and [evs2] in the loop. *)
Definition second_run_like_first (P : Platform) (s : signum)
    (evs1 evs2 : list event) : Prop :=
  let c1 := main P evs1 in
  let self2 := fst (App_new (world c1)) in
  let w2 := snd (App_new (world c1)) in
  view self2 (run_with_entry_signal P self2 s w2 evs2)
  = view app0 (run_with_entry_signal P app0 s (snd (App_new boot)) evs2).

(** ** Units of work begun and given up *)

(** The event [ev] ends [run] at [c] while the rest of a unit of work is
    pending: the unit was begun, its increment done, and it will not be
    completed. *)
Definition abandons (P : Platform) (self : nat) (ev : event) (c : Config)
  : bool :=
  match pc c, pc (step P self ev c) with
  | L58, Done _ => true
  | _, _ => false
  end.

(** The number of units of work given up while [evs] run from [c]. *)
Fixpoint abandoned (P : Platform) (self : nat) (evs : list event) (c : Config)
  : Z :=
  match evs with
  | [] => 0
  | ev :: evs' =>
      (if abandons P self ev c then 1 else 0)
      + abandoned P self evs' (step P self ev c)
  end.

(** The counter of [self] against [k] completed and [j] given up units of
    work. *)
Definition started_inv (self : nat) (k j : Z) (c : Config) : Prop :=
  match pc c with
  | L55 | L57 | L67 _ => j = 0 /\ get_counter self (world c) = k
  | L58 => j = 0 /\ get_counter self (world c) = k + 1
  | Done _ => 0 <= j <= 1 /\ get_counter self (world c) = k + j
  end.

(** After the events [evs] the counter of the controller of a new process
    equals the number of its completed units of work. *)
Definition counter_equals_completed (P : Platform) (evs : list event)
  : Prop :=
  get_counter app0 (world (main P evs))
  = completed P app0 evs (run P app0 (snd (App_new boot)) []).

(** ** Further observations on executions *)

(** The record the [finally] clause writes. *)
Definition is_cleanup (r : LogRecord) : bool :=
  String.eqb (message r) "App service stopped".

Definition is_error (r : LogRecord) : bool :=
  match level r with ERROR => true | INFO => false end.

(** How many records of [l] satisfy [f]. *)
Definition count (f : LogRecord -> bool) (l : list LogRecord) : nat :=
  length (List.filter f l).

Definition is_deliver (ev : event) : bool :=
  match ev with Deliver _ => true | _ => false end.

(** A signal is delivered to the loop while [evs] run from [c]. *)
Fixpoint delivered (P : Platform) (self : nat) (evs : list event) (c : Config)
  : bool :=
  match evs with
  | [] => false
  | ev :: evs' =>
      (in_loop c && is_deliver ev) || delivered P self evs' (step P self ev c)
  end.

(** Events without signals and exceptions: statements run and time
    passes. *)
Definition quiet (ev : event) : bool :=
  match ev with Proceed | Elapse _ => true | Raise _ | Deliver _ => false end.

(** The event raises what neither [except] clause catches: anything
    but a [KeyboardInterrupt] and an instance of [Exception]. *)
Definition escapes (ev : event) : bool :=
  match ev with
  | Raise KeyboardInterrupt | Raise (Exception _) => false
  | Raise _ => true
  | _ => false
  end.

(** The clock of a process against the counter of [self], when nothing
    but the sleeps of the loop takes time: a tick begins 60 seconds after
    the one before, and what is left of a wait is within the interval. *)
Definition clock_inv (self : nat) (c : Config) : Prop :=
  let t := clock (world c) in
  let n := get_counter self (world c) in
  match pc c with
  | L55 | L57 => t = 60 * n
  | L58 => t = 60 * (n - 1)
  | L67 r => 0 < r <= 60 /\ t + r = 60 * n
  | Done _ => 60 * (n - 1) <= t <= 60 * n
  end.

(** The record the unit of work of tick [n] writes at time [t]. *)
Definition tick_record (P : Platform) (n t : Z) : LogRecord :=
  {| level := INFO;
     message := "Application running - Counter: " +:+ pretty n
                +:+ ", Time: " +:+ strftime P t;
     exc_info := false |}.

(** What the log shows of a run: no cleanup record and no error record
    while the loop runs; once it is over, one cleanup record, which is the
    last record, and at most one error record. *)
Definition log_inv (c : Config) : Prop :=
  let l := log (world c) in
  match pc c with
  | Done _ =>
      count is_cleanup l = 1%nat
      /\ last l = Some {| level := INFO; message := "App service stopped";
                          exc_info := false |}
      /\ (count is_error l <= 1)%nat
  | _ => count is_cleanup l = 0%nat /\ count is_error l = 0%nat
  end.

Section Loop.
Context (P : Platform) (self : nat).

Lemma step_done ev c o : pc c = Done o -> step P self ev c = c.
Proof. intros H. unfold step. now rewrite H. Qed.

Lemma exec_done evs c o : pc c = Done o -> exec P self evs c = c.
Proof.
  induction evs as [|ev evs IH]; intros H; [done|].
  cbn. rewrite (step_done _ _ _ H). now apply IH.
Qed.

Lemma exec_app evs1 evs2 c :
  exec P self (evs1 ++ evs2) c = exec P self evs2 (exec P self evs1 c).
Proof. apply fold_left_app. Qed.

Lemma exec_cons ev evs c :
  exec P self (ev :: evs) c = exec P self evs (step P self ev c).
Proof. done. Qed.

Lemma deliver_bound s p w :
  registered self w ->
  deliver s p w
  = {| pc := p; world := signal_handler self (signum_value s) w |}.
Proof.
  intros (Ht & Hi & _). unfold deliver.
  destruct s; cbn; now rewrite ?Ht, ?Hi.
Qed.

Lemma signal_handler_registered o n w :
  registered self w -> registered self (signal_handler o n w).
Proof.
  intros (Ht & Hi & Hs). split_and!; [done..|].
  cbn. rewrite lookup_alter. destruct (decide (o = self)); [|done].
  subst. now apply fmap_is_Some.
Qed.

Lemma step_registered ev c :
  registered self (world c) -> registered self (world (step P self ev c)).
Proof.
  intros H. pose proof H as (Ht & Hi & Hs).
  destruct c as [p w]; cbn in *.
  destruct p, ev as [|e|s|dt]; cbn; try done;
    try (destruct e; split_and!; done);
    try (rewrite (deliver_bound _ _ _ H); now apply signal_handler_registered).
  - destruct (get_running self w); split_and!; done.
  - split_and!; [done..|]. cbn. rewrite lookup_alter_eq. now apply fmap_is_Some.
  - destruct (_ && _); split_and!; done.
Qed.

Lemma exec_registered evs c :
  registered self (world c) -> registered self (world (exec P self evs c)).
Proof.
  revert c. induction evs as [|ev evs IH]; intros c H; [done|].
  cbn. apply IH. now apply step_registered.
Qed.

Lemma run_prologue_registered w :
  is_Some (objs w !! self) -> registered self (run_prologue P self w).
Proof. intros H. split_and!; done. Qed.
End Loop.

Lemma App_new_lookup w :
  objs (snd (App_new w)) !! fst (App_new w) = Some App_init.
Proof. cbn. apply lookup_insert_eq. Qed.

Lemma main_eq P evs :
  main P evs = run P app0 (snd (App_new boot)) evs.
Proof. done. Qed.

Lemma main_registered P evs : registered app0 (world (main P evs)).
Proof.
  rewrite main_eq. apply exec_registered, run_prologue_registered.
  unfold app0. now rewrite App_new_lookup.
Qed.

(** ** Reading attributes after a write *)

Lemma get_running_alter f o o' w :
  get_running o (set_objs (alter f o') w)
  = if decide (o' = o)
    then match objs w !! o with Some a => running (f a) | None => false end
    else get_running o w.
Proof.
  unfold get_running; cbn. rewrite lookup_alter.
  destruct (decide (o' = o)) as [->|]; [|done]. now destruct (objs w !! o).
Qed.

Lemma get_counter_alter f o o' w :
  get_counter o (set_objs (alter f o') w)
  = if decide (o' = o)
    then match objs w !! o with Some a => counter (f a) | None => 0 end
    else get_counter o w.
Proof.
  unfold get_counter; cbn. rewrite lookup_alter.
  destruct (decide (o' = o)) as [->|]; [|done]. now destruct (objs w !! o).
Qed.

(** ** The signal handler *)

Lemma signal_handler_lookup self n w o :
  objs (signal_handler self n w) !! o
  = if decide (self = o) then set_running false <$> objs w !! o
    else objs w !! o.
Proof.
  cbn. rewrite lookup_alter. now destruct (decide (self = o)) as [->|].
Qed.

Lemma get_counter_signal_handler o o' n w :
  get_counter o (signal_handler o' n w) = get_counter o w.
Proof.
  unfold signal_handler. rewrite get_counter_alter.
  destruct (decide (o' = o)); [|done].
  unfold get_counter; cbn. now destruct (objs w !! o).
Qed.

(** C10: the signal handler writes only the liveness flag. For every call
    of [signal_handler], on every state, the object it is bound to keeps
    its counter and only has [running] set to false, every other object is
    as it was, and so are the signal dispositions and the clock. *)
Theorem signal_handler_frame (self : nat) (signum : Z) (w : World) (o : nat) :
  let w' := signal_handler self signum w in
  objs w' !! o
    = (if decide (self = o) then set_running false <$> objs w !! o
       else objs w !! o)
  /\ get_counter o w' = get_counter o w
  /\ on_sigterm w' = on_sigterm w
  /\ on_sigint w' = on_sigint w
  /\ clock w' = clock w.
Proof.
  cbn zeta. split_and!; try done.
  - apply signal_handler_lookup.
  - apply get_counter_signal_handler.
Qed.

Lemma handler_io_eq self n w :
  handler_io self n w
  = emissions [ {| level := INFO;
                   message := "Received signal " +:+ pretty n
                              +:+ ", shutting down gracefully...";
                   exc_info := false |} ].
Proof.
  unfold handler_io, signal_handler, logger_info, io_between.
  cbn [log emit set_objs]. now rewrite drop_app_length.
Qed.

(** C3, as the code has it: [run] binds SIGINT and SIGTERM to the handler
    of the controller, and the binding stays while the loop runs. When
    either signal is then delivered, the handler logs one record of
    informational severity, which the logger writes to the log file and to
    standard output before the call returns, sets [running] to false,
    leaves the counter, and returns to the interrupted statement. Its work
    is the flag and these two writes. *)
Theorem run_registers_signal_handler
    (P : Platform) (self : nat) (w : World) (evs : list event) (s : signum) :
  is_Some (objs w !! self) ->
  in_loop (run P self w evs) = true ->
  let c := run P self w evs in
  let c' := step P self (Deliver s) c in
  getsignal SIGINT (world c) = Bound self
  /\ getsignal SIGTERM (world c) = Bound self
  /\ pc c' = pc c
  /\ world c' = signal_handler self (signum_value s) (world c)
  /\ log (world c') = log (world c) ++ [received_record s]
  /\ io_between (world c) (world c')
     = [ {| to := FileHandler "/var/log/app/app.log";
            record := received_record s |};
         {| to := StreamHandler_stdout; record := received_record s |} ]
  /\ objs (world c') !! self = set_running false <$> objs (world c) !! self
  /\ get_running self (world c') = false
  /\ get_counter self (world c') = get_counter self (world c).
Proof.
  intros Hself Hloop c c'.
  assert (Hreg : registered self (world c)).
  { apply exec_registered, run_prologue_registered, Hself. }
  pose proof Hreg as (Ht & Hi & Hs).
  assert (Hc' : c' = {| pc := pc c;
                        world := signal_handler self (signum_value s)
                                   (world c) |}).
  { subst c'. unfold step, in_loop in *. fold c in Hloop.
    destruct (pc c) eqn:Hp; try done; now apply deliver_bound. }
  rewrite Hc'. cbn [pc world].
  pose proof (signal_handler_lookup self (signum_value s) (world c) self)
    as Ho.
  rewrite decide_True in Ho by done.
  split_and!; try done.
  - apply (handler_io_eq self (signum_value s) (world c)).
  - unfold get_running. rewrite Ho. now destruct (objs (world c) !! self).
  - apply get_counter_signal_handler.
Qed.

Lemma run_registers_signal_handler_witness :
  is_Some (objs (snd (App_new boot)) !! app0)
  /\ in_loop (run P0 app0 (snd (App_new boot)) one_tick) = true
  /\ get_running app0
       (world (step P0 app0 (Deliver SIGTERM)
                 (run P0 app0 (snd (App_new boot)) one_tick))) = false.
Proof.
  assert (H1 : is_Some (objs (snd (App_new boot)) !! app0)).
  { exists App_init. vm_compute. reflexivity. }
  assert (H2 : in_loop (run P0 app0 (snd (App_new boot)) one_tick) = true).
  { vm_compute. reflexivity. }
  split; [exact H1|]. split; [exact H2|].
  exact (proj1 (proj2 (proj2 (proj2 (proj2 (proj2 (proj2 (proj2
    (run_registers_signal_handler P0 app0 (snd (App_new boot)) one_tick
       SIGTERM H1 H2))))))))).
Defined.

(** C3, as the claim states it, fails: SIGTERM arrives in the first wait,
    and before it sets the flag the handler has the logger write its
    record to the log file and to standard output. *)
Lemma handler_writes_log_counterexample :
  let w := world (main P0 one_tick) in
  handler_io app0 (signum_value SIGTERM) w
  = [ {| to := FileHandler "/var/log/app/app.log";
         record := received_record SIGTERM |};
      {| to := StreamHandler_stdout; record := received_record SIGTERM |} ]
  /\ ~ no_blocking_work app0 (signum_value SIGTERM) w.
Proof.
  cbv zeta. split.
  - apply (handler_io_eq app0 (signum_value SIGTERM)).
  - unfold no_blocking_work.
    rewrite (handler_io_eq app0 (signum_value SIGTERM)). discriminate.
Qed.

(** ** Shutdown is one-way *)

Lemma step_running_false P self o ev c :
  get_running o (world c) = false ->
  get_running o (world (step P self ev c)) = false.
Proof.
  intros H. destruct c as [p w]; cbn in *.
  assert (Hh : forall o' n, get_running o (signal_handler o' n w) = false).
  { intros o' n. unfold signal_handler. rewrite get_running_alter.
    destruct (decide (o' = o)); [|done].
    unfold logger_info, emit, get_running in *; cbn.
    now destruct (objs w !! o). }
  destruct p, ev as [|e|s|dt]; cbn; try done;
    try (destruct e; done);
    try (unfold deliver; destruct (getsignal s w); cbn; auto; done).
  - now destruct (get_running self w).
  - rewrite get_running_alter. destruct (decide (self = o)); [|done].
    unfold get_running in H. now destruct (objs w !! o).
  - now destruct (_ && _).
Qed.

(** C4: shutdown is one-way. From any state of the loop and under any
    events (statements of the loop body, signal deliveries, exceptions and
    the cleanup they lead to), a controller whose [running] is false still
    has [running] false afterwards. *)
Theorem shutdown_one_way
    (P : Platform) (self o : nat) (evs : list event) (c : Config) :
  get_running o (world c) = false ->
  get_running o (world (exec P self evs c)) = false.
Proof.
  revert c. induction evs as [|ev evs IH]; intros c H; [done|].
  cbn. apply IH. now apply step_running_false.
Qed.

Lemma shutdown_one_way_witness :
  get_running app0 (world (main P0 (one_tick ++ [Deliver SIGINT]))) = false
  /\ get_running app0
       (world (exec P0 app0
                 [Elapse 5; Deliver SIGTERM; Proceed; Proceed; Proceed]
                 (main P0 (one_tick ++ [Deliver SIGINT])))) = false.
Proof.
  assert (H : get_running app0
                (world (main P0 (one_tick ++ [Deliver SIGINT]))) = false).
  { vm_compute. reflexivity. }
  split; [exact H|].
  exact (shutdown_one_way P0 app0 app0 _ _ H).
Defined.

(** ** The tick counter *)

Lemma get_counter_emit o r w : get_counter o (emit r w) = get_counter o w.
Proof. done. Qed.

Lemma get_counter_advance o dt w :
  get_counter o (advance dt w) = get_counter o w.
Proof. done. Qed.

Lemma get_running_emit o r w : get_running o (emit r w) = get_running o w.
Proof. done. Qed.

Lemma get_running_advance o dt w :
  get_running o (advance dt w) = get_running o w.
Proof. done. Qed.

Create Rewrite HintDb attr.
#[local] Hint Rewrite get_counter_signal_handler get_counter_emit
  get_counter_advance get_running_emit get_running_advance : attr.

Ltac attr :=
  cbn [pc world finally_ except_]; unfold logger_info, logger_error;
  autorewrite with attr.

Lemma step_counter_mono P self o ev c :
  get_counter o (world c) <= get_counter o (world (step P self ev c)).
Proof.
  destruct c as [p w]; cbn.
  destruct p, ev as [|e|s|dt]; cbn; try lia;
    try (destruct e; attr; lia);
    try (unfold deliver; destruct (getsignal s w); attr; lia).
  - destruct (get_running self w); attr; lia.
  - rewrite get_counter_alter. destruct (decide (self = o)); [|lia].
    unfold get_counter. destruct (objs w !! o); cbn; lia.
  - attr; lia.
  - attr; lia.
  - destruct (_ && _); attr; lia.
Qed.

Lemma exec_counter_mono P self o evs c :
  get_counter o (world c) <= get_counter o (world (exec P self evs c)).
Proof.
  revert c. induction evs as [|ev evs IH]; intros c; [cbn; lia|].
  cbn. etrans; [apply (step_counter_mono P self o ev)|apply IH].
Qed.

Lemma step_counter_inv P self k ev c :
  registered self (world c) ->
  counter_inv self k c ->
  counter_inv self (k + (if completes ev c then 1 else 0)) (step P self ev c).
Proof.
  intros Hreg. pose proof Hreg as (_ & _ & [a Ha]).
  destruct c as [p w]; unfold counter_inv, completes; cbn in *.
  destruct p, ev as [|e|s|dt]; cbn; intros H;
    try (destruct e; attr; lia);
    try (rewrite (deliver_bound self _ _ _ Hreg); attr; lia);
    try (attr; lia).
  - destruct (get_running self w); attr; lia.
  - rewrite get_counter_alter, decide_True by done.
    unfold get_counter in H. rewrite Ha in *. cbn. lia.
  - destruct (_ && _); attr; lia.
Qed.

Lemma exec_counter_inv P self evs : forall k c,
  registered self (world c) ->
  counter_inv self k c ->
  counter_inv self (k + completed P self evs c) (exec P self evs c).
Proof.
  induction evs as [|ev evs IH]; intros k c Hreg H; cbn.
  - now rewrite Z.add_0_r.
  - rewrite Z.add_assoc. apply IH; [now apply step_registered|].
    now apply step_counter_inv.
Qed.

Lemma step_started_inv P self k j ev c :
  registered self (world c) ->
  started_inv self k j c ->
  started_inv self (k + (if completes ev c then 1 else 0))
    (j + (if abandons P self ev c then 1 else 0)) (step P self ev c).
Proof.
  intros Hreg. pose proof Hreg as (_ & _ & [a Ha]).
  destruct c as [p w]; unfold started_inv, completes, abandons;
    cbn [pc world] in *.
  destruct p, ev as [|e|s|dt]; unfold step; cbn [pc world proceed];
    intros H;
    try (destruct e; attr; lia);
    try (rewrite (deliver_bound self _ _ _ Hreg); attr; lia);
    try (attr; lia).
  - destruct (get_running self w); attr; lia.
  - rewrite get_counter_alter, decide_True by done.
    unfold get_counter in H. rewrite Ha in *. cbn. lia.
  - destruct (_ && _); attr; lia.
Qed.

Lemma exec_started_inv P self evs : forall k j c,
  registered self (world c) ->
  started_inv self k j c ->
  started_inv self (k + completed P self evs c) (j + abandoned P self evs c)
    (exec P self evs c).
Proof.
  induction evs as [|ev evs IH]; intros k j c Hreg H; cbn.
  - now rewrite !Z.add_0_r.
  - rewrite !Z.add_assoc. apply IH; [now apply step_registered|].
    now apply step_started_inv.
Qed.

(** C5, as the code has it: the counter goes up by one per unit of work
    begun, the increment being the first statement of the unit, and it
    never goes down. A new controller starts at 0. After any events with
    [n] completed units of work its counter is [n] when the loop is
    between units (at the loop test, before the increment, or in the
    wait) and [n + 1] while the rest of unit [n + 1] is pending; when
    [run] is over it is [n], or [n + 1] if [run] ended while the rest of a
    unit was pending, and stays so. No further events make it smaller. *)
Theorem counter_counts_started_units
    (P : Platform) (evs evs' : list event) :
  let c0 := run P app0 (snd (App_new boot)) [] in
  let c := main P evs in
  let n := completed P app0 evs c0 in
  let a := abandoned P app0 evs c0 in
  get_counter app0 (world c0) = 0
  /\ match pc c with
     | L55 | L57 | L67 _ => a = 0 /\ get_counter app0 (world c) = n
     | L58 => a = 0 /\ get_counter app0 (world c) = n + 1
     | Done _ => 0 <= a <= 1 /\ get_counter app0 (world c) = n + a
     end
  /\ get_counter app0 (world c)
     <= get_counter app0 (world (exec P app0 evs' c)).
Proof.
  intros c0 c n a.
  assert (H0 : get_counter app0 (world c0) = 0).
  { unfold get_counter, c0, run, app0. cbn -[App_new].
    now rewrite App_new_lookup. }
  split_and!; [done| |apply exec_counter_mono].
  pose proof (exec_started_inv P app0 evs 0 0 c0) as H.
  rewrite !Z.add_0_l in H. apply H.
  - apply (main_registered P []).
  - split; [done|exact H0].
Qed.

(** C5, as the claim states it, fails: the second unit of work raises
    after its increment; [run] is over with one unit of work completed and
    the counter at 2. *)
Lemma counter_ahead_of_completed_counterexample :
  let evs := one_tick ++ [Proceed; Proceed; Proceed;
                           Raise (Exception "sensor timeout")] in
  pc (main P0 evs) = Done Returned
  /\ completed P0 app0 evs (run P0 app0 (snd (App_new boot)) []) = 1
  /\ get_counter app0 (world (main P0 evs)) = 2
  /\ ~ counter_equals_completed P0 evs.
Proof.
  cbv zeta. split_and!; [vm_compute; reflexivity..|].
  intros H. vm_compute in H. discriminate H.
Qed.

(** ** Leaving the loop *)

Section Exit.
Context (P : Platform) (self : nat).

Lemma step_raise e c :
  in_loop c = true -> step P self (Raise e) c = except_ e (world c).
Proof. unfold in_loop, step. now destruct (pc c). Qed.

Lemma step_deliver s c :
  in_loop c = true -> registered self (world c) ->
  step P self (Deliver s) c
  = {| pc := pc c; world := signal_handler self (signum_value s) (world c) |}.
Proof.
  unfold in_loop, step. intros Hl Hreg.
  destruct (pc c); try done; now apply deliver_bound.
Qed.

Lemma get_running_signal_handler n w :
  get_running self (signal_handler self n w) = false.
Proof.
  unfold signal_handler. rewrite get_running_alter, decide_True by done.
  cbn. now destruct (objs w !! self).
Qed.

Lemma advance_0 w : advance 0 w = w.
Proof. destruct w; unfold advance; cbn. now rewrite Z.add_0_r. Qed.

(** A wait whose flag is already false runs out, and the loop test ends
    [run]. *)
Lemma exit_from_wait c r :
  pc c = L67 r -> get_running self (world c) = false ->
  exec P self [Proceed; Proceed] c = finally_ Returned (advance r (world c)).
Proof.
  destruct c as [p w]; cbn. intros -> H. cbn.
  change (get_running self (advance r w)) with (get_running self w).
  now rewrite H.
Qed.

(** From every point of the loop, a false flag ends [run] by a return
    after at most four statements. *)
Lemma exit_when_stopped c :
  in_loop c = true -> get_running self (world c) = false ->
  pc (exec P self (repeat Proceed (steps_to_exit (pc c))) c) = Done Returned.
Proof.
  destruct c as [p w]; cbn. intros Hl H.
  assert (H57 : get_running self
            (set_objs (alter (fun a => set_counter (counter a + 1) a) self) w)
          = false).
  { rewrite get_running_alter, decide_True by done.
    unfold get_running in H. now destruct (objs w !! self). }
  destruct p; try done; cbn; attr; rewrite ?H57, ?H; done.
Qed.
End Exit.

(** ** The wait between ticks *)

(** C1, as the code has it: a shutdown signal received during the wait
    sets [running] to false at once, but does not shorten the wait. The
    sleep goes on for what is left of the 60 seconds; only then the loop
    test runs, [run] returns without a further tick, and the wait has
    lasted the full interval however early the signal came. *)
Theorem signal_during_wait_takes_full_interval
    (P : Platform) (evs : list event) (s : signum) (dt : Z) :
  pc (main P evs) = L67 60 ->
  let c := main P evs in
  let c1 := exec P app0 [Elapse dt; Deliver s] c in
  let c2 := exec P app0 [Proceed; Proceed] c1 in
  get_running app0 (world c1) = false
  /\ pc c1 = L67 (60 - (clock (world c1) - clock (world c)))
  /\ pc c2 = Done Returned
  /\ clock (world c2) = clock (world c) + 60
  /\ get_counter app0 (world c2) = get_counter app0 (world c)
  /\ ~ wait_cut_short c c2.
Proof.
  intros Hp. pose proof (main_registered P evs) as Hreg.
  revert Hp Hreg. generalize (main P evs). intros c Hp Hreg c0 c1 c2.
  subst c0.
  set (ce := step P app0 (Elapse dt) c).
  assert (He : exists d, pc ce = L67 (60 - d)
                         /\ world ce = advance d (world c)).
  { subst ce. unfold step. rewrite Hp.
    destruct (_ && _); [exists dt|exists 0]; cbn [pc world]; split; try done.
    now rewrite advance_0. }
  destruct He as (d & Hpe & Hwe).
  assert (Hrege : registered app0 (world ce)) by (now apply step_registered).
  assert (Hc1 : c1 = {| pc := L67 (60 - d);
                        world := signal_handler app0 (signum_value s)
                                   (advance d (world c)) |}).
  { subst c1. rewrite exec_cons. fold ce. cbn [exec fold_left].
    rewrite step_deliver; [now rewrite Hpe, Hwe| |done].
    unfold in_loop. now rewrite Hpe. }
  assert (Hrun : get_running app0 (world c1) = false).
  { rewrite Hc1. apply get_running_signal_handler. }
  assert (Hc2 : c2 = finally_ Returned (advance (60 - d) (world c1))).
  { subst c2. apply exit_from_wait; [now rewrite Hc1|done]. }
  assert (Hclk : clock (world c2) = clock (world c) + 60).
  { rewrite Hc2, Hc1. cbn. lia. }
  split_and!; try done.
  - rewrite Hc1. cbn. f_equal. lia.
  - now rewrite Hc2.
  - rewrite Hc2, Hc1. now attr.
  - intros [_ Hlt]. lia.
Qed.

Lemma signal_during_wait_takes_full_interval_witness :
  pc (main P0 one_tick) = L67 60
  /\ clock (world (exec P0 app0 [Proceed; Proceed]
                     (exec P0 app0 [Elapse 10; Deliver SIGTERM]
                        (main P0 one_tick))))
     = clock (world (main P0 one_tick)) + 60.
Proof.
  assert (H : pc (main P0 one_tick) = L67 60) by (vm_compute; reflexivity).
  split; [exact H|].
  exact (proj1 (proj2 (proj2 (proj2
    (signal_during_wait_takes_full_interval P0 one_tick SIGTERM 10 H))))).
Defined.

(** C1, as the claim states it, fails: SIGTERM arrives as the first wait
    begins, and [run] returns a full 60 seconds later. *)
Lemma wait_not_cut_short_counterexample :
  let c := main P0 one_tick in
  let c' := exec P0 app0 [Deliver SIGTERM; Proceed; Proceed] c in
  pc c = L67 60
  /\ pc c' = Done Returned
  /\ clock (world c') = clock (world c) + 60
  /\ ~ wait_cut_short c c'.
Proof.
  cbv zeta. split_and!; [vm_compute; reflexivity..|].
  intros [_ H]. vm_compute in H. discriminate H.
Qed.

(** ** Exceptions in the loop *)

(** C2, as the code has it: an exception that is an instance of
    [Exception], raised by the unit of work of tick N, is caught inside
    [run] and logged at error severity with its traceback; [run] then
    writes the cleanup message and returns. Nothing is retried and no tick
    N+1 follows: whatever the environment does next, the state stays as it
    is, the objects as the failing tick left them. *)
Theorem exception_in_unit_of_work_ends_run
    (P : Platform) (self : nat) (c : Config) (e : exn) (evs' : list event) :
  in_unit_of_work c = true ->
  isinstance_Exception e = true ->
  let c' := step P self (Raise e) c in
  caught_and_logged_as_error e c c'
  /\ objs (world c') = objs (world c)
  /\ exec P self evs' c' = c'.
Proof.
  intros Hw He c'.
  assert (Hc' : c' = except_ e (world c)).
  { apply step_raise. unfold in_unit_of_work, in_loop in *.
    now destruct (pc c). }
  destruct e; try done. rewrite Hc'. cbn.
  split_and!; try done.
  - unfold caught_and_logged_as_error; cbn. split; [done|].
    now rewrite <- app_assoc.
  - now apply exec_done with Returned.
Qed.

Lemma exception_in_unit_of_work_ends_run_witness :
  in_unit_of_work (main P0 (one_tick ++ [Proceed; Proceed; Proceed])) = true
  /\ isinstance_Exception (Exception "sensor timeout") = true
  /\ caught_and_logged_as_error (Exception "sensor timeout")
       (main P0 (one_tick ++ [Proceed; Proceed; Proceed]))
       (step P0 app0 (Raise (Exception "sensor timeout"))
          (main P0 (one_tick ++ [Proceed; Proceed; Proceed]))).
Proof.
  assert (H1 : in_unit_of_work
                 (main P0 (one_tick ++ [Proceed; Proceed; Proceed])) = true).
  { vm_compute. reflexivity. }
  assert (H2 : isinstance_Exception (Exception "sensor timeout") = true).
  { reflexivity. }
  split; [exact H1|]. split; [exact H2|].
  exact (proj1 (exception_in_unit_of_work_ends_run P0 app0 _
                  (Exception "sensor timeout") [] H1 H2)).
Defined.

(** What is raised in the loop always ends [run] at once: by a return for
    [KeyboardInterrupt] and instances of [Exception], by leaving [run]
    otherwise. *)
Lemma raise_ends_run P self c e evs' :
  in_loop c = true ->
  let c' := step P self (Raise e) c in
  pc c' = Done (if isinstance_Exception e then Returned
                else match e with
                     | KeyboardInterrupt => Returned
                     | _ => Propagated e
                     end)
  /\ exec P self evs' c' = c'.
Proof.
  intros Hl c'. subst c'. rewrite step_raise by done.
  destruct e; cbn; (split; [done|]); now eapply exec_done.
Qed.

(** C2, as the claim states it, fails: the unit of work of the first tick
    raises [SystemExit(1)]; it is not caught, [run] does not return and no
    record of error severity is written. *)
Lemma uncaught_SystemExit_counterexample :
  let c := main P0 [Proceed; Proceed] in
  let c' := step P0 app0 (Raise (SystemExit 1)) c in
  in_unit_of_work c = true
  /\ pc c' = Done (Propagated (SystemExit 1))
  /\ forallb (fun r => match level r with INFO => true | ERROR => false end)
       (log (world c')) = true
  /\ ~ caught_and_logged_as_error (SystemExit 1) c c'.
Proof.
  cbv zeta. split_and!; [vm_compute; reflexivity..|].
  intros [H _]. vm_compute in H. discriminate H.
Qed.

(** A [KeyboardInterrupt] raised by the unit of work is caught, but logged
    at informational severity. *)
Lemma KeyboardInterrupt_in_unit_of_work_example :
  let c := main P0 [Proceed; Proceed] in
  let c' := step P0 app0 (Raise KeyboardInterrupt) c in
  pc c' = Done Returned
  /\ forallb (fun r => match level r with INFO => true | ERROR => false end)
       (log (world c')) = true.
Proof. vm_compute. done. Qed.

(** ** Exit codes *)

(** C6: graceful shutdown ends the process with exit code 0, and so does
    the path of an unexpected error. While the loop runs: after either
    signal the loop is left by a return within four statements, and the
    process exits with 0; a [KeyboardInterrupt] leads to exit code 0; and
    an instance of [Exception] raised in the loop leads to exit code 0 as
    well. *)
Theorem graceful_shutdown_exits_zero
    (P : Platform) (evs : list event) (s : signum) (text : string) :
  in_loop (main P evs) = true ->
  let c := main P evs in
  let cs := step P app0 (Deliver s) c in
  (steps_to_exit (pc cs) <= 4)%nat
  /\ process_status
       (exec P app0 (repeat Proceed (steps_to_exit (pc cs))) cs)
     = Some (Exited 0)
  /\ process_status (step P app0 (Raise KeyboardInterrupt) c)
     = Some (Exited 0)
  /\ process_status (step P app0 (Raise (Exception text)) c)
     = Some (Exited 0).
Proof.
  intros Hl. pose proof (main_registered P evs) as Hreg.
  revert Hl Hreg. generalize (main P evs). intros c Hl Hreg c0 cs. subst c0.
  assert (Hcs : cs = {| pc := pc c;
                        world := signal_handler app0 (signum_value s)
                                   (world c) |}).
  { now apply step_deliver. }
  split_and!.
  - destruct (pc cs); cbn; lia.
  - unfold process_status. rewrite exit_when_stopped; [done| |].
    + now rewrite Hcs.
    + rewrite Hcs. apply get_running_signal_handler.
  - now rewrite step_raise.
  - now rewrite step_raise.
Qed.

Lemma graceful_shutdown_exits_zero_witness :
  in_loop (main P0 (one_tick ++ [Elapse 30])) = true
  /\ process_status
       (exec P0 app0 [Proceed; Proceed]
          (step P0 app0 (Deliver SIGTERM) (main P0 (one_tick ++ [Elapse 30]))))
     = Some (Exited 0).
Proof.
  assert (H : in_loop (main P0 (one_tick ++ [Elapse 30])) = true).
  { vm_compute. reflexivity. }
  split; [exact H|].
  exact (proj1 (proj2
    (graceful_shutdown_exits_zero P0 (one_tick ++ [Elapse 30]) SIGTERM "" H))).
Defined.

(** C7: a [KeyboardInterrupt] raised during the wait ends the run the way
    a termination signal does. The interrupt is caught and logged at
    informational severity, the cleanup message follows, [run] returns and
    the process exits with 0; a signal delivered in the same wait is logged
    at informational severity by the handler, the cleanup message follows
    when the loop is left, [run] returns and the process exits with 0. *)
Theorem keyboard_interrupt_like_termination_signal
    (P : Platform) (evs : list event) (r : Z) (s : signum) :
  pc (main P evs) = L67 r ->
  let c := main P evs in
  let ck := step P app0 (Raise KeyboardInterrupt) c in
  let cs := exec P app0 [Deliver s; Proceed; Proceed] c in
  (pc ck = Done Returned
   /\ log (world ck)
      = log (world c)
        ++ [ {| level := INFO; message := "Received keyboard interrupt";
                exc_info := false |};
             {| level := INFO; message := "App service stopped";
                exc_info := false |} ]
   /\ process_status ck = Some (Exited 0))
  /\ (pc cs = Done Returned
      /\ log (world cs)
         = log (world c)
           ++ [ {| level := INFO;
                   message := "Received signal " +:+ pretty (signum_value s)
                              +:+ ", shutting down gracefully...";
                   exc_info := false |};
                {| level := INFO; message := "App service stopped";
                   exc_info := false |} ]
      /\ process_status cs = Some (Exited 0))
  /\ get_counter app0 (world ck) = get_counter app0 (world cs).
Proof.
  intros Hp. pose proof (main_registered P evs) as Hreg.
  revert Hp Hreg. generalize (main P evs). intros c Hp Hreg c0 ck cs. subst c0.
  assert (Hl : in_loop c = true) by (unfold in_loop; now rewrite Hp).
  assert (Hck : ck = except_ KeyboardInterrupt (world c)).
  { now apply step_raise. }
  assert (Hcs : cs = finally_ Returned
                       (advance r
                          (signal_handler app0 (signum_value s) (world c)))).
  { subst cs. rewrite exec_cons, step_deliver by done.
    rewrite exit_from_wait with (r := r); cbn [pc world]; try done.
    apply get_running_signal_handler. }
  rewrite Hck, Hcs. cbn.
  split_and!; try done.
  - now rewrite <- app_assoc.
  - now rewrite <- app_assoc.
  - now attr.
Qed.

Lemma keyboard_interrupt_like_termination_signal_witness :
  pc (main P0 (one_tick ++ [Elapse 20])) = L67 40
  /\ process_status
       (step P0 app0 (Raise KeyboardInterrupt)
          (main P0 (one_tick ++ [Elapse 20])))
     = Some (Exited 0).
Proof.
  assert (H : pc (main P0 (one_tick ++ [Elapse 20])) = L67 40).
  { vm_compute. reflexivity. }
  split; [exact H|].
  exact (proj2 (proj2 (proj1
    (keyboard_interrupt_like_termination_signal P0 (one_tick ++ [Elapse 20])
       40 SIGTERM H)))).
Defined.

(** ** Two controllers in one process *)

Section Simulation.
Context (P P' : Platform) (self self' : nat) (lv0 : list levelname) (d : Z).

Lemma simw_emit r r' w w' :
  level r = level r' ->
  simw self self' lv0 d w w' ->
  simw self self' lv0 d (emit r w) (emit r' w').
Proof.
  intros Hr (Ho & Hreg & Hreg' & Hc & Hl). split_and!; try done.
  cbn. rewrite !map_app, Hl, <- app_assoc. cbn. now rewrite Hr.
Qed.

Lemma simw_advance dt w w' :
  simw self self' lv0 d w w' ->
  simw self self' lv0 d (advance dt w) (advance dt w').
Proof.
  intros (Ho & Hreg & Hreg' & Hc & Hl). split_and!; try done. cbn. lia.
Qed.

Lemma registered_alter f o w :
  registered o w -> registered o (set_objs (alter f o) w).
Proof.
  intros (Ht & Hi & Hs). split_and!; [done..|].
  cbn. rewrite lookup_alter_eq. now apply fmap_is_Some.
Qed.

Lemma simw_alter f w w' :
  simw self self' lv0 d w w' ->
  simw self self' lv0 d
    (set_objs (alter f self) w) (set_objs (alter f self') w').
Proof.
  intros (Ho & Hreg & Hreg' & Hc & Hl).
  split_and!; try done; try (now apply registered_alter).
  cbn. now rewrite !lookup_alter_eq, Ho.
Qed.

Lemma simw_signal_handler n w w' :
  simw self self' lv0 d w w' ->
  simw self self' lv0 d (signal_handler self n w) (signal_handler self' n w').
Proof. intros H. apply simw_alter. now apply simw_emit. Qed.

Lemma simw_get_running w w' :
  simw self self' lv0 d w w' -> get_running self w = get_running self' w'.
Proof. intros (Ho & _). unfold get_running. now rewrite Ho. Qed.

Lemma sim_except e w w' :
  simw self self' lv0 d w w' ->
  sim self self' lv0 d (except_ e w) (except_ e w').
Proof.
  intros H. destruct e; (split; [done|]); cbn;
    repeat (apply simw_emit; [done|]); done.
Qed.

Lemma step_sim ev c c' :
  sim self self' lv0 d c c' ->
  sim self self' lv0 d (step P self ev c) (step P' self' ev c').
Proof.
  destruct c as [p w], c' as [p' w']. intros [Hp H]. cbn in Hp, H.
  subst p'. pose proof H as (Ho & Hreg & Hreg' & Hc & Hl).
  destruct p, ev as [|e|s|dt]; cbn;
    try (now apply sim_except);
    try (rewrite (deliver_bound self _ _ _ Hreg),
                 (deliver_bound self' _ _ _ Hreg');
         split; [done|]; now apply simw_signal_handler);
    try (split; done).
  - rewrite (simw_get_running _ _ H).
    destruct (get_running self' w'); (split; [done|]); cbn; [done|].
    now apply simw_emit.
  - split; [done|]. now apply simw_alter.
  - split; [done|]. now apply simw_emit.
  - split; [done|]. now apply simw_advance.
  - destruct (_ && _); (split; [done|]); cbn; [|done].
    now apply simw_advance.
Qed.

Lemma exec_sim evs : forall c c',
  sim self self' lv0 d c c' ->
  sim self self' lv0 d (exec P self evs c) (exec P' self' evs c').
Proof.
  induction evs as [|ev evs IH]; intros c c' H; [done|].
  cbn. apply IH. now apply step_sim.
Qed.
End Simulation.

(** The loop of [self] touches no other object. *)
Lemma step_other P self o ev c :
  registered self (world c) -> o <> self ->
  objs (world (step P self ev c)) !! o = objs (world c) !! o.
Proof.
  intros Hreg Hne. destruct c as [p w]; cbn in *.
  destruct p, ev as [|e|s|dt]; cbn; try done;
    try (destruct e; done);
    try (rewrite (deliver_bound self _ _ _ Hreg); cbn;
         now rewrite lookup_alter_ne).
  - now destruct (get_running self w).
  - now rewrite lookup_alter_ne.
  - now destruct (_ && _).
Qed.

Lemma exec_other P self o evs : forall c,
  registered self (world c) -> o <> self ->
  objs (world (exec P self evs c)) !! o = objs (world c) !! o.
Proof.
  induction evs as [|ev evs IH]; intros c Hreg Hne; [done|].
  rewrite exec_cons, IH; [now apply step_other|now apply step_registered|done].
Qed.

Lemma App_new_fresh w o :
  is_Some (objs w !! o) -> fst (App_new w) <> o.
Proof.
  intros H%elem_of_dom Heq. cbn in Heq. subst o.
  now apply is_fresh in H.
Qed.

(** C8, as the code has it: a second run on a fresh instance behaves like
    the first from the moment lines 46-47 have bound the signals to it.
    Both instances start with [running] true and counter 0. After a first
    run under any events, a new instance created and run in the same
    process goes, under the events [evs2] in the loop, through the same
    program points to the same flag and counter as the one controller of a
    new process under [evs2]; its clock and the levels of its log records
    only continue those of the first run, and the first instance is not
    touched. The signal dispositions are carried over: a signal at the
    entry of the second run, before line 46, runs the handler of the first
    instance and leaves the second as it is. *)
Theorem second_run_on_fresh_instance
    (P : Platform) (evs1 evs2 : list event) (s : signum) :
  let c1 := main P evs1 in
  let self2 := fst (App_new (world c1)) in
  let w2 := snd (App_new (world c1)) in
  let c2 := run P self2 w2 evs2 in
  let c := main P evs2 in
  objs (snd (App_new boot)) !! app0
  = Some {| running := true; counter := 0 |}
  /\ objs w2 !! self2 = Some {| running := true; counter := 0 |}
  /\ self2 <> app0
  /\ view self2 c2 = view app0 c
  /\ clock (world c2) = clock (world c) + clock (world c1)
  /\ map level (log (world c2))
     = map level (log (world c1)) ++ map level (log (world c))
  /\ objs (world c2) !! app0 = objs (world c1) !! app0
  /\ deliver_at_entry s w2
     = inl (signal_handler app0 (signum_value s) w2)
  /\ objs (signal_handler app0 (signum_value s) w2) !! self2
     = Some {| running := true; counter := 0 |}.
Proof.
  intros c1 self2 w2 c2 c.
  pose proof (main_registered P evs1) as Hreg1. fold c1 in Hreg1.
  clearbody c1.
  assert (H1 : objs (snd (App_new boot)) !! app0 = Some App_init).
  { apply App_new_lookup. }
  assert (H2 : objs w2 !! self2 = Some App_init).
  { apply App_new_lookup. }
  assert (Hne : self2 <> app0).
  { apply App_new_fresh, Hreg1. }
  assert (Hsim : sim self2 app0 (map level (log (world c1))) (clock (world c1))
                   c2 c).
  { apply (exec_sim P P self2 app0 _ _ evs2
             {| pc := L55; world := run_prologue P self2 w2 |}
             {| pc := L55;
                world := run_prologue P app0 (snd (App_new boot)) |}).
    split; [done|]. split_and!.
    - etrans; [exact H2|symmetry; exact H1].
    - apply run_prologue_registered. now rewrite H2.
    - apply (main_registered P []).
    - cbn. lia.
    - cbn. now rewrite !map_app, <- !app_assoc. }
  destruct Hsim as (Hp & Ho & Hr2 & _ & Hc & Hl).
  split_and!; try done.
  - unfold view. now rewrite Hp, Ho.
  - unfold c2, run. rewrite exec_other.
    + apply lookup_insert_ne, Hne.
    + apply run_prologue_registered. now rewrite H2.
    + intros Heq. now apply Hne.
  - destruct Hreg1 as (Ht & Hi & _). unfold deliver_at_entry.
    destruct s; cbn -[signal_handler]; now rewrite ?Ht, ?Hi.
  - rewrite signal_handler_lookup.
    destruct (decide (app0 = self2)) as [Heq|_]; [now destruct Hne|exact H2].
Qed.

(** C8, as the claim states it, fails: SIGTERM arrives at the entry of
    [run], before line 46. In a new process its default action ends the
    process; in a second run, after a first run that a SIGTERM ended, the
    handler still bound to the first instance takes it and the second run
    goes on to its first tick. *)
Lemma entry_signal_counterexample :
  let evs1 := one_tick ++ [Deliver SIGTERM; Proceed; Proceed] in
  let c1 := main P0 evs1 in
  let self2 := fst (App_new (world c1)) in
  let w2 := snd (App_new (world c1)) in
  pc c1 = Done Returned
  /\ view app0
       (run_with_entry_signal P0 app0 SIGTERM (snd (App_new boot)) one_tick)
     = (Done (Killed SIGTERM), Some {| running := true; counter := 0 |})
  /\ view self2 (run_with_entry_signal P0 self2 SIGTERM w2 one_tick)
     = (L67 60, Some {| running := true; counter := 1 |})
  /\ ~ second_run_like_first P0 SIGTERM evs1 one_tick.
Proof.
  cbv zeta. split_and!; [vm_compute; reflexivity..|].
  intros H. vm_compute in H. discriminate H.
Qed.

Lemma second_run_on_fresh_instance_example :
  let c1 := main P0 (one_tick ++ [Deliver SIGTERM; Proceed; Proceed]) in
  let self2 := fst (App_new (world c1)) in
  let c2 := run P0 self2 (snd (App_new (world c1)))
              (one_tick ++ [Proceed] ++ one_tick ++ [Deliver SIGINT]) in
  pc c1 = Done Returned
  /\ objs (world c2) !! app0 = Some {| running := false; counter := 1 |}
  /\ objs (world c2) !! self2 = Some {| running := false; counter := 2 |}.
Proof. vm_compute. done. Qed.

(** ** The environment is only logged *)

Lemma step_with_environ m P self ev c :
  step (with_environ m P) self ev c = step P self ev c.
Proof. reflexivity. Qed.

Lemma exec_with_environ m P self evs : forall c,
  exec (with_environ m P) self evs c = exec P self evs c.
Proof.
  induction evs as [|ev evs IH]; intros c; [done|].
  now rewrite !exec_cons, step_with_environ, IH.
Qed.

(** The log is only written: records already in it change nothing. *)
Lemma step_prepend P self l ev c :
  step P self ev (prepend l c) = prepend l (step P self ev c).
Proof.
  destruct c as [p [o t i lg k]].
  destruct p, ev as [|e|s|dt];
    unfold prepend, step, proceed, deliver, signal_handler, except_, finally_,
      logger_info, logger_error, emit, set_objs, advance, get_running,
      getsignal;
    cbn; try done;
    repeat match goal with
           | |- context [match ?x with _ => _ end] => destruct x; cbn
           end;
    now rewrite <- ?app_assoc.
Qed.

Lemma exec_prepend P self l evs : forall c,
  exec P self evs (prepend l c) = prepend l (exec P self evs c).
Proof.
  induction evs as [|ev evs IH]; intros c; [done|].
  now rewrite !exec_cons, step_prepend, IH.
Qed.

Lemma main_prepend P evs :
  main P evs
  = prepend (startup_records P)
      (exec P app0 evs
         {| pc := L55;
            world := signal_signal SIGINT (Bound app0)
                       (signal_signal SIGTERM (Bound app0)
                          (snd (App_new boot))) |}).
Proof. rewrite <- exec_prepend. reflexivity. Qed.

(** C9: the environment variables are read for the log only. Whatever
    [os.environ] holds, with [VIRTUAL_ENV] set or not, the same events
    take [run] through the same program points to the same objects, signal
    dispositions and clock; the log differs in nothing but the text of the
    one record that reports the variable. *)
Theorem environment_only_logged
    (P : Platform) (m : gmap string string) (evs : list event) :
  let c := main P evs in
  let c' := main (with_environ m P) evs in
  pc c' = pc c
  /\ objs (world c') = objs (world c)
  /\ on_sigterm (world c') = on_sigterm (world c)
  /\ on_sigint (world c') = on_sigint (world c)
  /\ clock (world c') = clock (world c)
  /\ log (world c')
     = <[3%nat := {| level := INFO;
                     message := "Virtual environment: "
                                +:+ default "Not set" (m !! "VIRTUAL_ENV");
                     exc_info := false |}]> (log (world c)).
Proof.
  cbv zeta. rewrite !main_prepend, exec_with_environ.
  split_and!; done.
Qed.

(** * Further properties of the program *)

(** ** The log *)

Lemma count_snoc f l r :
  count f (l ++ [r]) = (count f l + (if f r then 1 else 0))%nat.
Proof.
  unfold count. rewrite List.filter_app, length_app. cbn.
  now destruct (f r).
Qed.

Lemma step_log_prefix P self ev c :
  log (world c) `prefix_of` log (world (step P self ev c)).
Proof.
  destruct c as [p [o t i lg k]].
  destruct p, ev as [|e|s|dt];
    unfold step, proceed, deliver, signal_handler, except_, finally_,
      logger_info, logger_error, emit, set_objs, advance, get_running,
      getsignal;
    cbn;
    repeat match goal with
           | |- context [match ?x with _ => _ end] => destruct x; cbn
           end;
    repeat apply prefix_app_r; done.
Qed.

(** The log is only appended to: whatever the loop does, from any state,
    the records already written stay in front, unchanged and in order. *)
Theorem log_append_only
    (P : Platform) (self : nat) (evs : list event) (c : Config) :
  log (world c) `prefix_of` log (world (exec P self evs c)).
Proof.
  revert c. induction evs as [|ev evs IH]; intros c; [done|].
  rewrite exec_cons. etrans; [apply step_log_prefix|apply IH].
Qed.

(** ** How a run ends *)

Lemma step_not_killed P self ev c :
  registered self (world c) ->
  (forall s, pc c <> Done (Killed s)) ->
  forall s, pc (step P self ev c) <> Done (Killed s).
Proof.
  intros Hreg Hk. destruct c as [p w]; cbn in *.
  destruct p, ev as [|e|s0|dt]; cbn; try done;
    try (destruct e; done);
    try (rewrite (deliver_bound self _ _ _ Hreg); done).
  - now destruct (get_running self w).
  - now destruct (_ && _).
Qed.

Lemma exec_not_killed P self evs : forall c,
  registered self (world c) ->
  (forall s, pc c <> Done (Killed s)) ->
  forall s, pc (exec P self evs c) <> Done (Killed s).
Proof.
  induction evs as [|ev evs IH]; intros c Hreg Hk; [done|].
  rewrite exec_cons. apply IH;
    [now apply step_registered|now apply step_not_killed].
Qed.

(** Once [run] has bound the two signals, neither of them kills the
    process: no run of the program ends by the default action of SIGINT or
    SIGTERM, and the process status is never that of a signalled
    process. *)
Theorem run_never_killed (P : Platform) (evs : list event) (s : signum) :
  pc (main P evs) <> Done (Killed s)
  /\ process_status (main P evs) <> Some (Signaled s).
Proof.
  assert (H : forall s, pc (main P evs) <> Done (Killed s)).
  { rewrite main_eq. apply exec_not_killed; [apply (main_registered P [])|].
    done. }
  split; [apply H|].
  unfold process_status. destruct (pc (main P evs)) as [| | | |o] eqn:Hp;
    try done.
  destruct o as [|e|s']; cbn; try done; [now destruct e|].
  intros [= ->]. now apply (H s).
Qed.

Lemma step_log_inv P self ev c :
  registered self (world c) -> log_inv c -> log_inv (step P self ev c).
Proof.
  intros Hreg. destruct c as [p w]; unfold log_inv; cbn [pc world] in *.
  destruct p, ev as [|e|s|dt]; unfold step; cbn [pc world proceed];
    intros H; try exact H;
    try (rewrite (deliver_bound self _ _ _ Hreg));
    try (destruct e);
    unfold signal_handler, except_, finally_, logger_info, logger_error,
      set_objs, advance, emit;
    cbn [pc world log];
    try (destruct (get_running self w); cbn [pc world log]);
    try (destruct (_ && _); cbn [pc world log]);
    rewrite ?last_snoc, ?count_snoc; cbn; destruct H as [H1 H2];
    rewrite ?H1, ?H2; split_and?; done || lia.
Qed.

Lemma exec_log_inv P self evs : forall c,
  registered self (world c) -> log_inv c -> log_inv (exec P self evs c).
Proof.
  induction evs as [|ev evs IH]; intros c Hreg H; [done|].
  rewrite exec_cons. apply IH;
    [now apply step_registered|now apply step_log_inv].
Qed.

Lemma main_log_inv P evs : log_inv (main P evs).
Proof.
  rewrite main_eq. apply exec_log_inv; [apply (main_registered P [])|].
  split; reflexivity.
Qed.

(** The cleanup message is written by the [finally] clause at the moment
    [run] ends, and not before: while the loop runs the log holds no
    "App service stopped" record, and if the next event ends [run], by a
    return or by an exception that leaves it, the log then holds exactly
    one and it is the last record. *)
Theorem cleanup_logged_once_at_end
    (P : Platform) (evs : list event) (ev : event) :
  in_loop (main P evs) = true ->
  let c' := main P (evs ++ [ev]) in
  count is_cleanup (log (world (main P evs))) = 0%nat
  /\ (if in_loop c' then count is_cleanup (log (world c')) = 0%nat
      else count is_cleanup (log (world c')) = 1%nat
           /\ last (log (world c')) = Some cleanup_record).
Proof.
  intros Hl. cbv zeta.
  pose proof (main_log_inv P evs) as H.
  pose proof (main_log_inv P (evs ++ [ev])) as H'.
  revert Hl H H'. generalize (main P evs) (main P (evs ++ [ev])).
  intros c c' Hl H H'. unfold log_inv, in_loop in *.
  destruct (pc c); try done.
  all: destruct (pc c'); cbv zeta in H, H'; tauto.
Qed.

Lemma cleanup_logged_once_at_end_witness :
  in_loop (main P0 (one_tick ++ [Elapse 7])) = true
  /\ last (log (world (main P0 (one_tick ++ [Elapse 7]
                                 ++ [Raise (SystemExit 3)]))))
     = Some cleanup_record.
Proof.
  assert (H : in_loop (main P0 (one_tick ++ [Elapse 7])) = true).
  { vm_compute. reflexivity. }
  split; [exact H|].
  pose proof (cleanup_logged_once_at_end P0 (one_tick ++ [Elapse 7])
                (Raise (SystemExit 3)) H) as [_ H'].
  rewrite <- app_assoc in H'. exact (proj2 H').
Defined.

(** Records of error severity: none while the loop runs, and at most one
    in the whole log of a run, whatever is raised and however often
    signals arrive. *)
Theorem at_most_one_error_record (P : Platform) (evs : list event) :
  let c := main P evs in
  (count is_error (log (world c)) <= (if in_loop c then 0 else 1))%nat.
Proof.
  cbv zeta. pose proof (main_log_inv P evs) as H.
  revert H. generalize (main P evs). intros c H.
  unfold log_inv, in_loop in *.
  destruct (pc c); cbv zeta in H; lia.
Qed.

(** ** The liveness flag *)

Lemma step_get_running P self ev c :
  registered self (world c) ->
  get_running self (world (step P self ev c))
  = get_running self (world c) && negb (in_loop c && is_deliver ev).
Proof.
  intros Hreg. destruct c as [p w]; unfold in_loop; cbn [pc world] in *.
  destruct p, ev as [|e|s|dt]; unfold step; cbn [pc world proceed is_deliver];
    rewrite ?andb_true_r, ?andb_false_r; try done;
    try (destruct e; now attr);
    try (rewrite (deliver_bound self _ _ _ Hreg); cbn [world];
         apply get_running_signal_handler).
  - destruct (get_running self w) eqn:Hr; [done|]. now attr.
  - rewrite get_running_alter, decide_True by done.
    unfold get_running. now destruct (objs w !! self).
  - now destruct (_ && _).
Qed.

Lemma exec_get_running P self evs : forall c,
  registered self (world c) ->
  get_running self (world (exec P self evs c))
  = get_running self (world c) && negb (delivered P self evs c).
Proof.
  induction evs as [|ev evs IH]; intros c Hreg.
  - cbn. now rewrite andb_true_r.
  - rewrite exec_cons, IH by now apply step_registered.
    rewrite step_get_running by done. cbn [delivered].
    rewrite negb_orb. now rewrite andb_assoc.
Qed.

Lemma get_running_start P :
  get_running app0 (run_prologue P app0 (snd (App_new boot))) = true.
Proof.
  unfold get_running.
  change (objs (run_prologue P app0 (snd (App_new boot))))
    with (objs (snd (App_new boot))).
  unfold app0. now rewrite App_new_lookup.
Qed.

Lemma exec_in_loop P self evs : forall c,
  in_loop (exec P self evs c) = true -> in_loop c = true.
Proof.
  induction evs as [|ev evs IH]; intros c H; [done|].
  rewrite exec_cons in H. apply IH in H.
  unfold in_loop in *. destruct (pc c) eqn:Hp; try done.
  now rewrite (step_done P self ev c o Hp), Hp in H.
Qed.

Lemma delivered_in_loop P self evs : forall c,
  in_loop (exec P self evs c) = true ->
  delivered P self evs c = existsb is_deliver evs.
Proof.
  induction evs as [|ev evs IH]; intros c H; [done|].
  cbn [delivered existsb]. rewrite exec_cons in H.
  rewrite (IH _ H). apply exec_in_loop in H.
  assert (Hc : in_loop c = true).
  { unfold in_loop in *. destruct (pc c) eqn:Hp; try done.
    now rewrite (step_done P self ev c o Hp), Hp in H. }
  now rewrite Hc.
Qed.

(** The flag tells whether a signal has arrived: while the loop of a run
    is running, [running] is false exactly when SIGINT or SIGTERM has been
    delivered since the loop began; and whatever comes next, also what
    ends [run], changes the flag only if it is a signal. *)
Theorem running_false_iff_signalled
    (P : Platform) (evs : list event) (ev : event) :
  in_loop (main P evs) = true ->
  get_running app0 (world (main P evs)) = negb (existsb is_deliver evs)
  /\ get_running app0 (world (main P (evs ++ [ev])))
     = get_running app0 (world (main P evs)) && negb (is_deliver ev).
Proof.
  intros Hl. split.
  - rewrite main_eq in Hl |- *. unfold run in *.
    rewrite exec_get_running by apply (main_registered P []).
    cbn [world]. rewrite get_running_start.
    now rewrite (delivered_in_loop _ _ _ _ Hl).
  - rewrite !main_eq. unfold run. rewrite exec_app.
    cbn [exec fold_left].
    rewrite step_get_running
      by apply (exec_registered _ _ _ _ (main_registered P [])).
    rewrite main_eq in Hl. unfold run in Hl. now rewrite Hl.
Qed.

Lemma running_false_iff_signalled_witness :
  in_loop (main P0 (one_tick ++ [Deliver SIGINT; Elapse 3])) = true
  /\ get_running app0 (world (main P0 (one_tick ++ [Deliver SIGINT; Elapse 3])))
     = false.
Proof.
  assert (H : in_loop (main P0 (one_tick ++ [Deliver SIGINT; Elapse 3]))
              = true).
  { vm_compute. reflexivity. }
  split; [exact H|].
  exact (proj1 (running_false_iff_signalled P0 _ Proceed H)).
Defined.

(** ** A loop left alone *)

Lemma step_quiet P self ev c :
  quiet ev = true ->
  in_loop c = true -> get_running self (world c) = true ->
  in_loop (step P self ev c) = true.
Proof.
  destruct c as [p w]; unfold in_loop; cbn [pc world].
  destruct p, ev as [|e|s|dt]; unfold step; cbn [pc world proceed quiet];
    try done.
  - intros _ _ ->. done.
  - intros _ _ _. now destruct (_ && _).
Qed.

Lemma is_deliver_quiet ev : quiet ev = true -> is_deliver ev = false.
Proof. now destruct ev. Qed.

Lemma exec_quiet P self evs : forall c,
  forallb quiet evs = true ->
  registered self (world c) ->
  in_loop c = true -> get_running self (world c) = true ->
  in_loop (exec P self evs c) = true
  /\ get_running self (world (exec P self evs c)) = true.
Proof.
  induction evs as [|ev evs IH]; intros c Hq Hreg Hl Hr; [done|].
  cbn in Hq. apply andb_prop in Hq as [Hq1 Hq2].
  rewrite exec_cons. apply IH; try done.
  - now apply step_registered.
  - now apply step_quiet.
  - rewrite step_get_running, Hr, (is_deliver_quiet _ Hq1) by done.
    now rewrite andb_false_r.
Qed.

(** [run] does not return by itself: as long as no signal is delivered
    and nothing is raised, however many statements run and however much
    time passes, the loop is still running with the flag true. *)
Theorem run_blocks_until_signal_or_exception
    (P : Platform) (evs : list event) :
  forallb quiet evs = true ->
  in_loop (main P evs) = true
  /\ get_running app0 (world (main P evs)) = true
  /\ process_status (main P evs) = None.
Proof.
  intros Hq.
  destruct (exec_quiet P app0 evs
              {| pc := L55; world := run_prologue P app0 (snd (App_new boot)) |}
              Hq (main_registered P []) eq_refl (get_running_start P))
    as [Hl Hr].
  rewrite main_eq. unfold run. split_and!; try done.
  unfold process_status, in_loop in *.
  now destruct (pc _).
Qed.

Lemma run_blocks_until_signal_or_exception_witness :
  forallb quiet (one_tick ++ [Elapse 59; Proceed] ++ one_tick) = true
  /\ in_loop (main P0 (one_tick ++ [Elapse 59; Proceed] ++ one_tick)) = true.
Proof.
  assert (H : forallb quiet (one_tick ++ [Elapse 59; Proceed] ++ one_tick)
              = true) by reflexivity.
  split; [exact H|].
  exact (proj1 (run_blocks_until_signal_or_exception P0 _ H)).
Defined.

(** ** Ticks and time *)

Lemma one_round P self c :
  registered self (world c) ->
  pc c = L55 -> get_running self (world c) = true ->
  let c' := exec P self (repeat Proceed 4) c in
  pc c' = L55
  /\ get_counter self (world c') = get_counter self (world c) + 1
  /\ get_running self (world c') = true
  /\ clock (world c') = clock (world c) + 60.
Proof.
  intros (_ & _ & [a Ha]). destruct c as [p w]; cbn [pc world] in *.
  intros -> Hr. cbn. rewrite Hr. cbn. split_and!; try done.
  - attr. rewrite get_counter_alter, decide_True by done.
    unfold get_counter. now rewrite Ha.
  - attr. rewrite get_running_alter, decide_True by done.
    unfold get_running in *. now rewrite Ha in *.
Qed.

Lemma get_counter_start P :
  get_counter app0 (run_prologue P app0 (snd (App_new boot))) = 0.
Proof.
  unfold get_counter.
  change (objs (run_prologue P app0 (snd (App_new boot))))
    with (objs (snd (App_new boot))).
  unfold app0. now rewrite App_new_lookup.
Qed.

Lemma rounds P self n : forall c,
  registered self (world c) ->
  pc c = L55 -> get_running self (world c) = true ->
  let c' := exec P self (repeat Proceed (4 * n)) c in
  pc c' = L55
  /\ get_counter self (world c') = get_counter self (world c) + Z.of_nat n
  /\ get_running self (world c') = true
  /\ clock (world c') = clock (world c) + 60 * Z.of_nat n.
Proof.
  induction n as [|n IH]; intros c Hreg Hp Hr; cbv zeta.
  - change (4 * 0)%nat with 0%nat. cbn [repeat exec fold_left].
    split_and!; try done; lia.
  - replace (4 * S n)%nat with (4 + 4 * n)%nat by lia.
    rewrite repeat_app, exec_app.
    destruct (one_round P self c Hreg Hp Hr) as (Hp1 & Hc1 & Hr1 & Hk1).
    set (c1 := exec P self (repeat Proceed 4) c) in *.
    destruct (IH c1 (exec_registered P self _ _ Hreg) Hp1 Hr1)
      as (Hp2 & Hc2 & Hr2 & Hk2).
    split_and!; [done|rewrite Hc2, Hc1; lia|done|rewrite Hk2, Hk1; lia].
Qed.

(** Left alone, the loop ticks once per interval: after [n] rounds of its
    four statements the loop is at its test again, the flag is true, the
    counter is [n] and 60 [n] seconds have passed. *)
Theorem ticks_every_interval (P : Platform) (n : nat) :
  let c := main P (repeat Proceed (4 * n)) in
  pc c = L55
  /\ get_counter app0 (world c) = Z.of_nat n
  /\ get_running app0 (world c) = true
  /\ clock (world c) = 60 * Z.of_nat n.
Proof.
  cbv zeta. rewrite main_eq. unfold run.
  destruct (rounds P app0 n
              {| pc := L55; world := run_prologue P app0 (snd (App_new boot)) |}
              (main_registered P []) eq_refl (get_running_start P))
    as (Hp & Hc & Hr & Hk).
  cbn [pc world] in *. rewrite get_counter_start in Hc.
  split_and!; try done.
Qed.

Lemma step_clock_inv P self ev c :
  registered self (world c) -> clock_inv self c ->
  clock_inv self (step P self ev c).
Proof.
  intros Hreg. pose proof Hreg as (_ & _ & [a Ha]).
  destruct c as [p w]; unfold clock_inv; cbn [pc world] in *.
  destruct p, ev as [|e|s|dt]; unfold step; cbn [pc world proceed];
    cbv zeta; intros H; try exact H;
    try (rewrite (deliver_bound self _ _ _ Hreg); cbn [pc world];
         rewrite get_counter_signal_handler; exact H);
    try (destruct e; attr; cbn [clock emit]; lia).
  - destruct (get_running self w); attr; cbn [clock emit]; lia.
  - rewrite get_counter_alter, decide_True by done.
    unfold get_counter in H. rewrite Ha in *. cbn. lia.
  - attr. cbn [clock emit]. lia.
  - attr. cbn [clock advance]. lia.
  - destruct (Z.ltb_spec 0 dt), (Z.ltb_spec dt remaining);
      cbn [andb pc world]; attr; cbn [clock advance]; lia.
Qed.

Lemma exec_clock_inv P self evs : forall c,
  registered self (world c) -> clock_inv self c ->
  clock_inv self (exec P self evs c).
Proof.
  induction evs as [|ev evs IH]; intros c Hreg H; [done|].
  rewrite exec_cons. apply IH;
    [now apply step_registered|now apply step_clock_inv].
Qed.

(** The clock follows the counter, on a clock that only the sleeps of the
    loop advance: in every run tick [n] begins 60 ([n] - 1) seconds after
    the start, a wait has between 0 and 60 seconds left and ends at
    60 [n], whatever signals and partial sleeps it saw, and [run] is over
    no later than 60 seconds after its last tick began. *)
Theorem clock_follows_counter (P : Platform) (evs : list event) :
  let c := main P evs in
  let t := clock (world c) in
  let n := get_counter app0 (world c) in
  match pc c with
  | L55 | L57 => t = 60 * n
  | L58 => t = 60 * (n - 1)
  | L67 r => 0 < r <= 60 /\ t + r = 60 * n
  | Done _ => 60 * (n - 1) <= t <= 60 * n
  end.
Proof.
  assert (H0 : clock_inv app0
                 {| pc := L55;
                    world := run_prologue P app0 (snd (App_new boot)) |}).
  { unfold clock_inv. cbn [pc world]. cbv zeta.
    now rewrite (get_counter_start P). }
  exact (exec_clock_inv P app0 evs _ (main_registered P []) H0).
Qed.

Lemma tick_record_numbered_aux P evs :
  pc (main P evs) = L58 ->
  get_counter app0 (world (main P evs))
  = completed P app0 evs (run P app0 (snd (App_new boot)) []) + 1.
Proof.
  intros Hp.
  pose proof (exec_counter_inv P app0 evs 0
                (run P app0 (snd (App_new boot)) [])
                (main_registered P []) (get_counter_start P)) as H.
  rewrite Z.add_0_l in H. unfold counter_inv in H.
  rewrite main_eq in Hp |- *. unfold run in *. cbn [exec fold_left] in *.
  now rewrite Hp in H.
Qed.

(** The log line of a tick carries the number of the tick: when the unit
    of work of a run reaches its log statement after [n] completed units,
    the record it writes reads "Counter: [n + 1]" with the time of the
    clock, so the ticks are numbered 1, 2, 3, ... without gaps. *)
Theorem tick_record_numbered (P : Platform) (evs : list event) :
  pc (main P evs) = L58 ->
  let c := main P evs in
  let n := completed P app0 evs (run P app0 (snd (App_new boot)) []) in
  log (world (step P app0 Proceed c))
  = log (world c) ++ [tick_record P (n + 1) (clock (world c))].
Proof.
  intros Hp. cbv zeta. rewrite <- (tick_record_numbered_aux P evs Hp).
  revert Hp. generalize (main P evs). intros [p w]; cbn [pc world].
  now intros ->.
Qed.

Lemma tick_record_numbered_witness :
  pc (main P0 (one_tick ++ [Proceed; Proceed; Proceed])) = L58
  /\ last (log (world (step P0 app0 Proceed
                         (main P0 (one_tick ++ [Proceed; Proceed; Proceed])))))
     = Some (tick_record P0 2 60).
Proof.
  assert (H : pc (main P0 (one_tick ++ [Proceed; Proceed; Proceed])) = L58).
  { vm_compute. reflexivity. }
  split; [exact H|].
  rewrite (tick_record_numbered P0 _ H). vm_compute. reflexivity.
Defined.

(** ** Signals *)





(** A signal after the first: once the handler has run, a further signal
    of either kind leaves every object as it is, and the dispositions and
    the clock; it only adds its own record to the log. *)
Theorem repeated_signal_only_logged (self : nat) (n m : Z) (w : World) :
  let w1 := signal_handler self n w in
  let w2 := signal_handler self m w1 in
  objs w2 = objs w1
  /\ on_sigterm w2 = on_sigterm w1
  /\ on_sigint w2 = on_sigint w1
  /\ clock w2 = clock w1
  /\ log w2
     = log w1
       ++ [ {| level := INFO;
               message := "Received signal " +:+ pretty m
                          +:+ ", shutting down gracefully...";
               exc_info := false |} ].
Proof.
  cbv zeta. split_and!; try done.
  apply map_eq. intros o. rewrite !signal_handler_lookup.
  destruct (decide (self = o)); [|done].
  now destruct (objs w !! o).
Qed.

(** ** Exit status *)

Lemma step_returns P self ev c :
  registered self (world c) -> escapes ev = false ->
  in_loop c = true \/ pc c = Done Returned ->
  in_loop (step P self ev c) = true \/ pc (step P self ev c) = Done Returned.
Proof.
  intros Hreg He [Hl|Hd]; [|rewrite (step_done _ _ _ _ _ Hd); now right].
  destruct c as [p w]; unfold in_loop in *; cbn [pc world] in *.
  destruct p, ev as [|e|s|dt]; unfold step; cbn [pc world proceed];
    try done; try (now left);
    try (destruct e; try done; now right);
    try (rewrite (deliver_bound self _ _ _ Hreg); now left).
  - destruct (get_running self w); [now left|now right].
  - destruct (_ && _); now left.
Qed.

Lemma exec_returns P self evs : forall c,
  registered self (world c) -> existsb escapes evs = false ->
  in_loop c = true \/ pc c = Done Returned ->
  in_loop (exec P self evs c) = true \/ pc (exec P self evs c) = Done Returned.
Proof.
  induction evs as [|ev evs IH]; intros c Hreg He H; [done|].
  cbn in He. apply orb_false_elim in He as [He1 He2].
  rewrite exec_cons. apply IH; [now apply step_registered|done|].
  now apply step_returns.
Qed.

(** The exit code is 0 unless something leaves [run]: in a run where
    everything raised in the loop is a [KeyboardInterrupt] or an instance
    of [Exception], whatever else happens (signals, time passing), the
    process is either still running or has exited with 0. *)
Theorem exit_code_zero_unless_escape (P : Platform) (evs : list event) :
  existsb escapes evs = false ->
  process_status (main P evs) = None
  \/ process_status (main P evs) = Some (Exited 0).
Proof.
  intros He.
  pose proof (exec_returns P app0 evs
                {| pc := L55;
                   world := run_prologue P app0 (snd (App_new boot)) |}
                (main_registered P []) He (or_introl eq_refl)) as H.
  change (exec P app0 evs _) with (main P evs) in H.
  revert H. generalize (main P evs). intros c [Hl|Hd].
  - left. unfold process_status, in_loop in *. now destruct (pc c).
  - right. unfold process_status. now rewrite Hd.
Qed.

Lemma exit_code_zero_unless_escape_witness :
  existsb escapes
    (one_tick ++ [Deliver SIGINT; Raise (Exception "disk full")]) = false
  /\ (process_status
        (main P0 (one_tick ++ [Deliver SIGINT; Raise (Exception "disk full")]))
      = None
      \/ process_status
           (main P0 (one_tick
                     ++ [Deliver SIGINT; Raise (Exception "disk full")]))
         = Some (Exited 0)).
Proof.
  assert (H : existsb escapes
                (one_tick ++ [Deliver SIGINT; Raise (Exception "disk full")])
              = false) by reflexivity.
  split; [exact H|].
  exact (exit_code_zero_unless_escape P0 _ H).
Defined.
